(** * LanguagePicker: locale display names, ranking and filtering

    A shallow embedding of [src/components/LanguagePicker.tsx].  The
    component computes one display record per supported locale
    ([displayNames]), orders the records by translation progress, narrows
    them with the text typed in the filter input ([filteredNames]) and
    renders each survivor as a link that switches locale; the filter
    input's key handler ([onKeyDown]) clicks or focuses the first of them.

    What the component imports rather than defines is gathered in the class
    [Collaborators]: the translation function [t], the platform's
    [Intl.DisplayNames] facility, [String.prototype.toLowerCase], the two
    JSON tables and the [DEFAULT_LOCALE] constant.  Exceptions are modelled
    by the [result] type; JavaScript numbers that hold the integer
    percentages of the progress table are modelled by [Z]. *)

From Stdlib Require Import String Ascii List ZArith Bool Lia Sorted Permutation.
Import ListNotations.

Local Open Scope Z_scope.
Local Open Scope list_scope.

(** JavaScript's [+] on strings. *)
Local Infix "+s" := String.append (at level 50, left associativity).

(* ------------------------------------------------------------------ *)
(** ** Data *)

(** An entry of [i18n.config.json].  [localName] is read through [?.] and
    tested for truthiness, so it is kept optional. *)
Record I18nConfigItem := {
  code : string;
  name : string;
  localName : option string;
  crowdinCode : string
}.

(** An entry of [translationProgress.json]. *)
Module Crowdin.
Record ProgressItem := {
  languageId : string;
  approvalProgress : Z
}.
End Crowdin.

(** [type LocaleDisplayInfo] (lines 27-32). *)
Record LocaleDisplayInfo := {
  localeChoice : string;
  source : string;
  target : string;
  approvalProgress : Z
}.

(** The fields of [useRouter()] the component reads (line 76).  [locale] is
    used under a non-null assertion ([locale!]), so it is a plain string;
    [locales] is read through [?.] and may be undefined. *)
Record Router := {
  asPath : string;
  locale : string;
  locales : option (list string)
}.

(** The two [throw new Error(...)] of the resolver (lines 88 and 109). *)
Inductive Error :=
| MissingI18nConfig (localeChoice : string)
| MissingDisplayName (localeChoice : string).

Definition message (e : Error) : string :=
  match e with
  | MissingI18nConfig l => "Missing i18n config for " +s l
  | MissingDisplayName l => "Missing language display name, locale: " +s l
  end.

(** A computation that returns or throws. *)
Inductive result (A : Type) :=
| Ok (a : A)
| Throw (e : Error).
Arguments Ok {A} a.
Arguments Throw {A} e.

Definition bind {A B : Type} (m : result A) (k : A -> result B) : result B :=
  match m with
  | Ok a => k a
  | Throw e => Throw e
  end.

Notation "x <- m ;; k" := (bind m (fun x => k))
  (at level 61, m at next level, right associativity).

(** [Array.prototype.map] with a callback that may throw: the first throw
    aborts the traversal. *)
Fixpoint Array_map {A B : Type} (f : A -> result B) (l : list A)
  : result (list B) :=
  match l with
  | [] => Ok []
  | x :: xs => y <- f x ;; ys <- Array_map f xs ;; Ok (y :: ys)
  end.

(** [Array.prototype.sort(compareFn)].  ECMAScript requires the sort to be
    stable, and for a consistent comparator its result is then determined:
    [a] is moved behind [b] only when [compareFn a b > 0].  Insertion from
    the right realises exactly this. *)
Fixpoint sort_insert {A : Type} (compareFn : A -> A -> Z) (a : A) (l : list A)
  : list A :=
  match l with
  | [] => [a]
  | b :: l' =>
      if 0 <? compareFn a b then b :: sort_insert compareFn a l'
      else a :: b :: l'
  end.

Fixpoint Array_sort {A : Type} (compareFn : A -> A -> Z) (l : list A)
  : list A :=
  match l with
  | [] => []
  | a :: l' => sort_insert compareFn a (Array_sort compareFn l')
  end.

(** [String.prototype.includes]: [searchString] occurs in [s] at some
    position. *)
Fixpoint includes (s searchString : string) : bool :=
  if String.prefix searchString s then true
  else match s with
       | EmptyString => false
       | String _ s' => includes s' searchString
       end.

(** JavaScript truthiness of a [string | undefined]. *)
Definition truthy (v : option string) : bool :=
  match v with
  | Some (String _ _) => true
  | _ => false
  end.

(** [a || b] on [string | undefined]. *)
Definition or_else (a b : option string) : option string :=
  if truthy a then a else b.

(** [a !== b] where [a] may be undefined and [b] is a string. *)
Definition strict_neq (a : option string) (b : string) : bool :=
  match a with
  | Some s => negb (String.eqb s b)
  | None => true
  end.

(** The value of a [string | undefined] once narrowed to [string]. *)
Definition narrowed (v : option string) : string :=
  match v with
  | Some s => s
  | None => EmptyString
  end.

(* ------------------------------------------------------------------ *)
(** ** Collaborators *)

(** Everything the component imports.  [Intl_DisplayNames_of viewer subject]
    is [new Intl.DisplayNames([viewer], {type: "language"}).of(subject)],
    typed [string | undefined]; locale codes are taken to be well-formed
    language tags, for which the facility does not throw. *)
Class Collaborators := {
  t : string -> string;
  Intl_DisplayNames_of : string -> string -> option string;
  toLowerCase : string -> string;
  i18nConfig : list I18nConfigItem;
  progressData : list Crowdin.ProgressItem;
  DEFAULT_LOCALE : string
}.

(* ------------------------------------------------------------------ *)
(** ** The resolver, the ranker and the filter *)

Section Component.
Context {env : Collaborators}.

(** Line 84: [i18nConfig.find(({ code }) => localeChoice === code)]. *)
Definition findConfig (localeChoice : string) : option I18nConfigItem :=
  find (fun c => String.eqb localeChoice (code c)) i18nConfig.

(** Lines 91-99, the constant [source]. *)
Definition resolveSource (locale localeChoice : string)
    (i18nConfigItem : I18nConfigItem) : option string :=
  let intlSource := Intl_DisplayNames_of locale localeChoice in
  let fallbackSource :=
    if strict_neq intlSource localeChoice then intlSource
    else Some (name i18nConfigItem) in
  let i18nKey := "language-" +s toLowerCase localeChoice in
  let i18nSource := t i18nKey in
  if String.eqb i18nSource i18nKey then fallbackSource else Some i18nSource.

(** Lines 102-106, the constant [target]. *)
Definition resolveTarget (localeChoice : string)
    (i18nConfigItem : I18nConfigItem) : option string :=
  let fallbackTarget := Intl_DisplayNames_of localeChoice localeChoice in
  let i18nConfigTarget := localName i18nConfigItem in
  or_else i18nConfigTarget fallbackTarget.

(** Lines 114-116, the constant [dataItem]. *)
Definition findProgress (i18nConfigItem : I18nConfigItem)
  : option Crowdin.ProgressItem :=
  find (fun d => String.eqb (crowdinCode i18nConfigItem)
                            (Crowdin.languageId d)) progressData.

(** Lines 117-119, the constant [approvalProgress].  [||] takes its right
    operand when the left one is undefined or the number 0. *)
Definition resolveApprovalProgress (localeChoice : string)
    (i18nConfigItem : I18nConfigItem) : Z :=
  let dataItem := findProgress i18nConfigItem in
  let orElse := if String.eqb localeChoice DEFAULT_LOCALE then 100 else 0 in
  match dataItem with
  | Some d =>
      if Crowdin.approvalProgress d =? 0 then orElse
      else Crowdin.approvalProgress d
  | None => orElse
  end.

(** Lines 83-122, the callback given to [locales.map]. *)
Definition toDisplayInfo (locale localeChoice : string)
  : result LocaleDisplayInfo :=
  match findConfig localeChoice with
  | None => Throw (MissingI18nConfig localeChoice)
  | Some i18nConfigItem =>
      let source := resolveSource locale localeChoice i18nConfigItem in
      let target := resolveTarget localeChoice i18nConfigItem in
      if negb (truthy source) || negb (truthy target)
      then Throw (MissingDisplayName localeChoice)
      else
        let approvalProgress :=
          resolveApprovalProgress localeChoice i18nConfigItem in
        Ok {| localeChoice := localeChoice;
              source := narrowed source;
              target := narrowed target;
              approvalProgress := approvalProgress |}
  end.

(** Line 123, the comparator [(a, b) => b.approvalProgress - a.approvalProgress]. *)
Definition compareFn (a b : LocaleDisplayInfo) : Z :=
  approvalProgress b - approvalProgress a.

(** The records in resolution order, before [.sort]. *)
Definition resolved (locale : string) (ls : list string)
  : result (list LocaleDisplayInfo) :=
  Array_map (toDisplayInfo locale) ls.

(** Lines 81-123: [locales?.map(...).sort(...) || []].  The optional chain
    skips both calls when [locales] is undefined, and an array is always
    truthy. *)
Definition displayNames (router : Router)
  : result (list LocaleDisplayInfo) :=
  match locales router with
  | None => Ok []
  | Some ls =>
      rs <- resolved (locale router) ls ;;
      Ok (Array_sort compareFn rs)
  end.

(** Lines 126-129, the predicate given to [displayNames.filter]. *)
Definition passes (filterValue : string) (r : LocaleDisplayInfo) : bool :=
  includes (toLowerCase (localeChoice r +s source r +s target r))
           (toLowerCase filterValue).

(** Lines 125-130. *)
Definition filteredNames (router : Router) (filterValue : string)
  : result (list LocaleDisplayInfo) :=
  ds <- displayNames router ;;
  Ok (filter (passes filterValue) ds).

End Component.

(* ------------------------------------------------------------------ *)
(** ** Order of the ranked list *)

(** Non-increasing translation progress. *)
Definition progress_ge (a b : LocaleDisplayInfo) : Prop :=
  approvalProgress a >= approvalProgress b.

(** Records with the same progress as [v], in the order of the list. *)
Definition withProgress (v : Z) (l : list LocaleDisplayInfo)
  : list LocaleDisplayInfo :=
  filter (fun r => approvalProgress r =? v) l.


(* ------------------------------------------------------------------ *)
(** ** The presenter: rendered items and their activation *)

Section Presenter.

(** The state of everything outside the component: the page shown, the
    caller's state, the open menu. *)
Variable World : Type.

(** A callback of type [() => void]. *)
Definition Callback := World -> World.

(** What the link component does with [href] and [locale] on a click. *)
Variable navigate : string -> string -> Callback.

(** The props each [<Item>] receives (lines 231-237). *)
Record ItemProps := {
  key : string;
  href : string;
  item_locale : string;
  firstResult : bool;
  onClick : Callback
}.

(** Lines 140-142: [handleClose ? handleClose() : onClose()]. *)
Definition onMenuClose (handleClose : option Callback) (onClose : Callback)
  : Callback :=
  fun w =>
    match handleClose with
    | Some handleClose => handleClose w
    | None => onClose w
    end.

(** Lines 227-237: [filteredNames.map((info, index) => <Item .../>)],
    from position [index] on. *)
Fixpoint renderItemsFrom (index : nat) (router : Router)
    (handleClose : option Callback) (onClose : Callback)
    (names : list LocaleDisplayInfo) : list ItemProps :=
  match names with
  | [] => []
  | r :: names' =>
      {| key := "item-" +s localeChoice r;
         href := asPath router;
         item_locale := localeChoice r;
         firstResult := Nat.eqb index 0;
         onClick := onMenuClose handleClose onClose |}
      :: renderItemsFrom (S index) router handleClose onClose names'
  end.

Definition renderItems := renderItemsFrom 0.

(** Modelled from the spec: the link component [BaseLink] of
    [@/components/Link] is not part of the sources at hand.  On
    activation it "calls the navigation primitive with (currentPath,
    selectedLocaleCode) then calls" the click handler it was given. *)
Definition activate (item : ItemProps) : Callback :=
  fun w => onClick item (navigate (href item) (item_locale item) w).

End Presenter.

Arguments key {World} _.
Arguments href {World} _.
Arguments item_locale {World} _.
Arguments firstResult {World} _.
Arguments onClick {World} _.
Arguments onMenuClose {World} handleClose onClose _.
Arguments renderItems {World} router handleClose onClose names.
Arguments renderItemsFrom {World} index router handleClose onClose names.
Arguments activate {World} navigate item _.

(** A world that only records what happened, in order. *)
Inductive Effect :=
| Navigated (href locale : string)
| HandleCloseCalled
| OnCloseCalled.

Definition record (e : Effect) : Callback (list Effect) :=
  fun log => log ++ [e].

(* ------------------------------------------------------------------ *)
(** ** Concrete collaborators *)

(** Lower-casing of the ASCII letters; a stand-in for [toLowerCase] on the
    sample data below. *)
Definition lower_ascii (c : ascii) : ascii :=
  let n := nat_of_ascii c in
  if (Nat.leb 65 n && Nat.leb n 90)%bool then ascii_of_nat (n + 32) else c.

Fixpoint lower_string (s : string) : string :=
  match s with
  | EmptyString => EmptyString
  | String c s' => String (lower_ascii c) (lower_string s')
  end.

(** A naming facility that knows English and Spanish and, like the
    platform's, answers an unknown code with the code itself. *)
Definition sampleDisplayNames (viewer subject : string) : option string :=
  if (String.eqb viewer "en" && String.eqb subject "en")%bool then Some "English"%string
  else if (String.eqb viewer "en" && String.eqb subject "es")%bool then Some "Spanish"%string
  else if (String.eqb viewer "es" && String.eqb subject "es")%bool then Some "español"%string
  else if (String.eqb viewer "es" && String.eqb subject "en")%bool then Some "inglés"%string
  else Some subject.

Definition englishConfig : I18nConfigItem :=
  {| code := "en"; name := "English"; localName := Some "English"%string;
     crowdinCode := "en" |}.

Definition spanishConfig : I18nConfigItem :=
  {| code := "es"; name := "Spanish"; localName := Some "Español"%string;
     crowdinCode := "es" |}.

Definition sampleConfig : list I18nConfigItem :=
  [ englishConfig; spanishConfig ].

(** The example of the specification: no translations loaded, progress
    known for Spanish only. *)
Definition sampleEnv : Collaborators := {|
  t := fun k => k;
  Intl_DisplayNames_of := sampleDisplayNames;
  toLowerCase := lower_string;
  i18nConfig := sampleConfig;
  progressData := [ {| Crowdin.languageId := "es";
                       Crowdin.approvalProgress := 40 |} ];
  DEFAULT_LOCALE := "en"
|}.

Definition sampleRouter : Router :=
  {| asPath := "/wallets/"; locale := "en";
     locales := Some ["en"; "es"]%string |}.

(** The progress table lists the default locale with nothing approved. *)
Definition zeroProgressEnv : Collaborators := {|
  t := fun k => k;
  Intl_DisplayNames_of := sampleDisplayNames;
  toLowerCase := lower_string;
  i18nConfig := sampleConfig;
  progressData := [ {| Crowdin.languageId := "en";
                       Crowdin.approvalProgress := 0 |};
                    {| Crowdin.languageId := "es";
                       Crowdin.approvalProgress := 40 |} ];
  DEFAULT_LOCALE := "en"
|}.

(** The configuration gives Spanish an empty [localName]. *)
Definition spanishNoLocalName : I18nConfigItem :=
  {| code := "es"; name := "Spanish"; localName := Some ""%string;
     crowdinCode := "es" |}.

Definition emptyLocalNameEnv : Collaborators := {|
  t := fun k => k;
  Intl_DisplayNames_of := sampleDisplayNames;
  toLowerCase := lower_string;
  i18nConfig := [ englishConfig; spanishNoLocalName ];
  progressData := [ {| Crowdin.languageId := "es";
                       Crowdin.approvalProgress := 40 |} ];
  DEFAULT_LOCALE := "en"
|}.

(** A locale nobody can name: no translation, no platform name, no
    configured native name. *)
Definition unnamedConfig : I18nConfigItem :=
  {| code := "xx"; name := "Unknown"; localName := None;
     crowdinCode := "xx" |}.

Definition unnamedEnv : Collaborators := {|
  t := fun k => k;
  Intl_DisplayNames_of := fun _ _ => None;
  toLowerCase := lower_string;
  i18nConfig := [ unnamedConfig ];
  progressData := [];
  DEFAULT_LOCALE := "en"
|}.

(** Every translation lookup answers with the empty string. *)
Definition blankTranslationEnv : Collaborators := {|
  t := fun _ => EmptyString;
  Intl_DisplayNames_of := sampleDisplayNames;
  toLowerCase := lower_string;
  i18nConfig := sampleConfig;
  progressData := [];
  DEFAULT_LOCALE := "en"
|}.

(** The routing context lists a locale the configuration does not know. *)
Definition unconfiguredRouter : Router :=
  {| asPath := "/wallets/"; locale := "en";
     locales := Some ["en"; "fr"; "es"]%string |}.


(** The records of the specification's example. *)
Definition englishInfo : LocaleDisplayInfo :=
  {| localeChoice := "en"; source := "English"; target := "English";
     approvalProgress := 100 |}.

Definition spanishInfo : LocaleDisplayInfo :=
  {| localeChoice := "es"; source := "Spanish"; target := "Español";
     approvalProgress := 40 |}.

(* ------------------------------------------------------------------ *)
(** ** The filter input's keyboard handler *)

Section Keyboard.

Variable World : Type.

(** [e.preventDefault()] on the keyboard event. *)
Variable preventDefault : Callback World.

(** [el.click()] and [el.focus()] on the element of a rendered item. *)
Variable click : ItemProps World -> Callback World.
Variable focus : ItemProps World -> Callback World.

(** [firstItemRef.current]: the element of the item rendered with
    [ref={firstResult ? firstItemRef : null}] (line 235), null when no item
    carries the ref. *)
Definition firstItemRef_current (items : list (ItemProps World))
  : option (ItemProps World) :=
  find firstResult items.

(** Lines 213-224, the [onKeyDown] handler of the filter input: two
    independent tests on [e.key]; [?.] skips the call on a null ref. *)
Definition onKeyDown (items : list (ItemProps World)) (e_key : string)
  : Callback World :=
  fun w =>
    let w :=
      if String.eqb e_key "Enter" then
        let w := preventDefault w in
        match firstItemRef_current items with
        | Some el => click el w
        | None => w
        end
      else w in
    if String.eqb e_key "ArrowDown" then
      let w := preventDefault w in
      match firstItemRef_current items with
      | Some el => focus el w
      | None => w
      end
    else w.

End Keyboard.

Arguments firstItemRef_current {World} items.
Arguments onKeyDown {World} preventDefault click focus items e_key _.

(** What the keyboard handler does to the page, in order. *)
Inductive DomEffect :=
| DefaultPrevented
| Clicked (key : string)
| Focused (key : string).

Definition logDom (e : DomEffect) : Callback (list DomEffect) :=
  fun log => log ++ [e].

(* ------------------------------------------------------------------ *)
(** ** Strings *)

Lemma prefix_empty (s : string) : String.prefix EmptyString s = true.
Proof. destruct s; reflexivity. Qed.

Lemma prefix_iff (p s : string) :
  String.prefix p s = true <-> exists post, s = p +s post.
Proof.
  revert s; induction p as [|x p IH]; intros s.
  - rewrite prefix_empty; split; [exists s; reflexivity | reflexivity].
  - destruct s as [|y s]; simpl.
    + split; [discriminate | intros [post H]; discriminate].
    + destruct (ascii_dec x y) as [->|Hxy].
      * rewrite IH; split; intros [post H]; exists post.
        -- now rewrite H.
        -- now injection H.
      * split; [discriminate | intros [post H]; injection H; congruence].
Qed.

Lemma includes_unfold (s f : string) :
  includes s f =
  if String.prefix f s then true
  else match s with
       | EmptyString => false
       | String _ s' => includes s' f
       end.
Proof. destruct s; reflexivity. Qed.

Lemma includes_iff (s f : string) :
  includes s f = true <-> exists pre post, s = pre +s f +s post.
Proof.
  induction s as [|x s IH]; rewrite includes_unfold.
  - destruct (String.prefix f EmptyString) eqn:Hp.
    + split; [intros _ | reflexivity].
      apply prefix_iff in Hp; destruct Hp as [post Hp].
      exists EmptyString, post; exact Hp.
    + split; [discriminate | intros [pre [post H]]].
      destruct pre; cbn [String.append] in H; [| discriminate].
      assert (String.prefix f EmptyString = true) as E
        by (apply prefix_iff; exists post; exact H).
      congruence.
  - destruct (String.prefix f (String x s)) eqn:Hp.
    + split; [intros _ | reflexivity].
      apply prefix_iff in Hp; destruct Hp as [post Hp].
      exists EmptyString, post; exact Hp.
    + rewrite IH; split; intros [pre [post H]].
      * exists (String x pre), post; cbn [String.append]; now rewrite H.
      * destruct pre as [|y pre]; cbn [String.append] in H.
        -- assert (String.prefix f (String x s) = true) as E
             by (apply prefix_iff; exists post; exact H).
           congruence.
        -- injection H as _ H; exists pre, post; exact H.
Qed.

Lemma includes_empty (s : string) : includes s EmptyString = true.
Proof. destruct s; simpl; reflexivity. Qed.

Lemma truthy_narrowed (v : option string) :
  truthy v = true -> v = Some (narrowed v) /\ narrowed v <> EmptyString.
Proof.
  destruct v as [[|x s]|]; simpl; try discriminate.
  intros _; split; [reflexivity | discriminate].
Qed.

(* ------------------------------------------------------------------ *)
(** ** The array primitives *)

Section ArrayFacts.
Context {A B : Type}.

Lemma Array_map_Ok (f : A -> result B) (l : list A) (rs : list B) :
  Array_map f l = Ok rs -> Forall2 (fun x r => f x = Ok r) l rs.
Proof.
  revert rs; induction l as [|x l IH]; simpl; intros rs H.
  - injection H as <-; constructor.
  - destruct (f x) as [y|e] eqn:Hx; simpl in H; [| discriminate].
    destruct (Array_map f l) as [ys|e] eqn:Hl; simpl in H; [| discriminate].
    injection H as <-; constructor; auto.
Qed.

Variable compareFn : A -> A -> Z.

Lemma sort_insert_perm (a : A) (l : list A) :
  Permutation (a :: l) (sort_insert compareFn a l).
Proof.
  induction l as [|b l IH]; simpl; [reflexivity |].
  destruct (0 <? compareFn a b); [| reflexivity].
  rewrite perm_swap; now constructor.
Qed.

Lemma Array_sort_perm (l : list A) :
  Permutation l (Array_sort compareFn l).
Proof.
  induction l as [|a l IH]; simpl; [constructor |].
  rewrite <- sort_insert_perm; now constructor.
Qed.

(** An element only overtakes neighbours it strictly follows, so a
    predicate that never separates it from them sees no change. *)
Lemma sort_insert_filter (p : A -> bool) (a : A) (l : list A) :
  (forall b, 0 < compareFn a b -> p a = true -> p b = false) ->
  filter p (sort_insert compareFn a l) = filter p (a :: l).
Proof.
  intros Hp; induction l as [|b l IH]; [reflexivity |].
  simpl; destruct (0 <? compareFn a b) eqn:Hc; [| reflexivity].
  apply Z.ltb_lt in Hc; simpl; rewrite IH; simpl.
  destruct (p a) eqn:Ha; [| reflexivity].
  now rewrite (Hp b Hc eq_refl).
Qed.

End ArrayFacts.

(* ------------------------------------------------------------------ *)
(** ** The ranker *)

Lemma progress_ge_trans : Relations_1.Transitive progress_ge.
Proof. intros a b c; unfold progress_ge; lia. Qed.

Lemma sort_insert_sorted (a : LocaleDisplayInfo) (l : list LocaleDisplayInfo) :
  Sorted progress_ge l -> Sorted progress_ge (sort_insert compareFn a l).
Proof.
  induction 1 as [|b l Hl IH Hhd]; simpl; [repeat constructor |].
  destruct (0 <? compareFn a b) eqn:Hc.
  - apply Z.ltb_lt in Hc; unfold compareFn in Hc.
    constructor; [exact IH |].
    destruct l as [|c l]; simpl.
    + constructor; unfold progress_ge; lia.
    + destruct (0 <? compareFn a c); constructor.
      * now inversion Hhd.
      * unfold progress_ge; lia.
  - apply Z.ltb_ge in Hc; unfold compareFn in Hc.
    constructor; [now constructor |].
    constructor; unfold progress_ge; lia.
Qed.

Lemma Array_sort_sorted (l : list LocaleDisplayInfo) :
  Sorted progress_ge (Array_sort compareFn l).
Proof.
  induction l as [|a l IH]; simpl; [constructor |].
  now apply sort_insert_sorted.
Qed.

Lemma Array_sort_stable (v : Z) (l : list LocaleDisplayInfo) :
  withProgress v (Array_sort compareFn l) = withProgress v l.
Proof.
  unfold withProgress; induction l as [|a l IH]; [reflexivity |].
  cbn [Array_sort]; rewrite sort_insert_filter.
  - simpl; now rewrite IH.
  - intros b Hc Ha; unfold compareFn in Hc.
    apply Z.eqb_eq in Ha; apply Z.eqb_neq; lia.
Qed.

(** C6. For every list of resolved records, the list the ranker produces
    ([.sort] with the comparator of line 123) holds the same records,
    is ordered by non-increasing [approvalProgress], and keeps records of
    equal [approvalProgress] in the order they had in the input. *)
Theorem ranker_sorted_and_stable (l : list LocaleDisplayInfo) :
  Permutation l (Array_sort compareFn l)
  /\ StronglySorted progress_ge (Array_sort compareFn l)
  /\ forall v, withProgress v (Array_sort compareFn l) = withProgress v l.
Proof.
  split; [apply Array_sort_perm | split].
  - apply Sorted_StronglySorted;
      [exact progress_ge_trans | apply Array_sort_sorted].
  - intros v; apply Array_sort_stable.
Qed.

(* ------------------------------------------------------------------ *)
(** ** The resolver *)

Section Resolver.
Context {env : Collaborators}.

Lemma findConfig_Some (L : string) (c : I18nConfigItem) :
  findConfig L = Some c -> In c i18nConfig /\ code c = L.
Proof.
  unfold findConfig; intros H; apply find_some in H as [Hin Heq].
  apply String.eqb_eq in Heq; auto.
Qed.

Lemma findConfig_None (L : string) :
  findConfig L = None <-> forall c, In c i18nConfig -> code c <> L.
Proof.
  unfold findConfig; split.
  - intros H c Hin Hc.
    pose proof (find_none _ _ H c Hin) as Hf; simpl in Hf.
    rewrite Hc, String.eqb_refl in Hf; discriminate.
  - intros H.
    destruct (find _ i18nConfig) as [c|] eqn:Hf; [| reflexivity].
    apply find_some in Hf as [Hin Heq]; apply String.eqb_eq in Heq.
    exfalso; apply (H c Hin); auto.
Qed.

(** What a returned record says about the resolution that produced it. *)
Lemma toDisplayInfo_Ok (locale L : string) (r : LocaleDisplayInfo) :
  toDisplayInfo locale L = Ok r ->
  exists c,
    findConfig L = Some c
    /\ localeChoice r = L
    /\ resolveSource locale L c = Some (source r)
    /\ source r <> EmptyString
    /\ resolveTarget L c = Some (target r)
    /\ target r <> EmptyString
    /\ approvalProgress r = resolveApprovalProgress L c.
Proof.
  unfold toDisplayInfo; intros H.
  destruct (findConfig L) as [c|]; [| discriminate].
  destruct (truthy (resolveSource locale L c)) eqn:Hs; simpl in H;
    [| discriminate].
  destruct (truthy (resolveTarget L c)) eqn:Ht; simpl in H;
    [| discriminate].
  injection H as <-; simpl.
  apply truthy_narrowed in Hs as [Hs Hs'], Ht as [Ht Ht'].
  exists c; repeat split; auto.
Qed.

Lemma toDisplayInfo_missing_name (locale L : string) (c : I18nConfigItem) :
  findConfig L = Some c ->
  truthy (resolveSource locale L c) = false
  \/ truthy (resolveTarget L c) = false ->
  toDisplayInfo locale L = Throw (MissingDisplayName L).
Proof.
  unfold toDisplayInfo; intros -> [H|H]; rewrite H; simpl.
  - reflexivity.
  - now rewrite orb_true_r.
Qed.

Lemma resolved_Ok (locale : string) (ls : list string)
    (rs : list LocaleDisplayInfo) :
  resolved locale ls = Ok rs ->
  map localeChoice rs = ls
  /\ Forall (fun r => source r <> EmptyString /\ target r <> EmptyString) rs.
Proof.
  intros H; apply Array_map_Ok in H.
  induction H as [|L r ls rs Hr _ [IHm IHf]]; [split; constructor |].
  apply toDisplayInfo_Ok in Hr as (c & _ & HL & _ & Hs & _ & Ht & _).
  split; [simpl; congruence | constructor; auto].
Qed.

Lemma displayNames_Some (router : Router) (ls : list string)
    (ds : list LocaleDisplayInfo) :
  locales router = Some ls ->
  displayNames router = Ok ds ->
  exists rs, resolved (locale router) ls = Ok rs
             /\ ds = Array_sort compareFn rs.
Proof.
  unfold displayNames; intros -> H.
  destruct (resolved (locale router) ls) as [rs|e]; simpl in H;
    [| discriminate].
  injection H as <-; eauto.
Qed.

(** C1, as amended. For a supported locale code [L] whose record is [r]:
    when the progress table has an entry for [L]'s [crowdinCode] and the
    entry's value is not 0, [approvalProgress] is that value; when there
    is no such entry, or the entry's value is 0, it is 100 for the
    default locale and 0 otherwise. *)
Theorem approval_progress_resolution
    (locale L : string) (c : I18nConfigItem) (r : LocaleDisplayInfo) :
  findConfig L = Some c ->
  toDisplayInfo locale L = Ok r ->
  let orElse := if String.eqb L DEFAULT_LOCALE then 100 else 0 in
  match findProgress c with
  | Some d =>
      (Crowdin.approvalProgress d <> 0 ->
       approvalProgress r = Crowdin.approvalProgress d)
      /\ (Crowdin.approvalProgress d = 0 -> approvalProgress r = orElse)
  | None => approvalProgress r = orElse
  end.
Proof.
  intros Hc Hr; apply toDisplayInfo_Ok in Hr as (c' & Hc' & _ & _ & _ & _ & _ & ->).
  assert (c' = c) as -> by congruence.
  unfold resolveApprovalProgress; cbv zeta.
  destruct (findProgress c) as [d|]; [| reflexivity].
  destruct (Crowdin.approvalProgress d =? 0) eqn:Hz.
  - apply Z.eqb_eq in Hz; split; [intros; contradiction | reflexivity].
  - apply Z.eqb_neq in Hz; split; [reflexivity | intros; contradiction].
Qed.

(** C2. For a supported locale code [L] with configuration entry [c] and
    key ["language-" + lowercase(L)]: if the translation of the key
    differs from the key, [source] is that translation; otherwise, if the
    platform's name for [L] in the viewer's locale differs from [L],
    [source] is that name; otherwise [source] is the configured English
    name.  The record, when one is returned, carries this value. *)
Theorem source_precedence
    (locale L : string) (c : I18nConfigItem) :
  findConfig L = Some c ->
  let i18nKey := "language-" +s toLowerCase L in
  let intlSource := Intl_DisplayNames_of locale L in
  (t i18nKey <> i18nKey -> resolveSource locale L c = Some (t i18nKey))
  /\ (t i18nKey = i18nKey -> intlSource <> Some L ->
      resolveSource locale L c = intlSource)
  /\ (t i18nKey = i18nKey -> intlSource = Some L ->
      resolveSource locale L c = Some (name c))
  /\ forall r, toDisplayInfo locale L = Ok r ->
               resolveSource locale L c = Some (source r).
Proof.
  intros Hc i18nKey intlSource; unfold resolveSource; cbv zeta.
  fold i18nKey intlSource; repeat split.
  - intros Hne; apply String.eqb_neq in Hne; now rewrite Hne.
  - intros He Hi; apply String.eqb_eq in He; rewrite He.
    destruct intlSource as [s|]; simpl; [| reflexivity].
    destruct (String.eqb s L) eqn:E; simpl; [| reflexivity].
    apply String.eqb_eq in E; congruence.
  - intros He Hi; apply String.eqb_eq in He; rewrite He, Hi; simpl.
    now rewrite String.eqb_refl.
  - intros r Hr.
    apply toDisplayInfo_Ok in Hr as (c' & Hc' & _ & Hs & _).
    assert (c' = c) as -> by congruence; exact Hs.
Qed.

(** C3, as amended. For a supported locale code [L] whose record is [r]:
    [target] is the configuration's [localName] whenever configuration
    supplies a non-empty one, and otherwise (no [localName], or an empty
    one) the platform's name for [L] in locale [L] itself. *)
Theorem target_precedence
    (locale L : string) (c : I18nConfigItem) (r : LocaleDisplayInfo) :
  findConfig L = Some c ->
  toDisplayInfo locale L = Ok r ->
  (forall s, localName c = Some s -> s <> EmptyString -> target r = s)
  /\ (localName c = None \/ localName c = Some EmptyString ->
      Intl_DisplayNames_of L L = Some (target r)).
Proof.
  intros Hc Hr.
  apply toDisplayInfo_Ok in Hr as (c' & Hc' & _ & _ & _ & Ht & _).
  assert (c' = c) as -> by congruence.
  unfold resolveTarget, or_else in Ht; cbv zeta in Ht; split.
  - intros s Hs Hne; rewrite Hs in Ht.
    destruct s as [|x s]; [contradiction | simpl in Ht; congruence].
  - intros [Hn|Hn]; rewrite Hn in Ht; exact Ht.
Qed.

(** C9. If the configuration entry of a supported locale supplies
    [localName] as the empty string, the resolver treats it as absent:
    [target] is the platform's name for [L] in locale [L], and a returned
    record carries that non-empty name, not the empty configured value. *)
Theorem empty_localName_is_absent
    (locale L : string) (c : I18nConfigItem) :
  findConfig L = Some c ->
  localName c = Some EmptyString ->
  resolveTarget L c = Intl_DisplayNames_of L L
  /\ forall r, toDisplayInfo locale L = Ok r ->
               Intl_DisplayNames_of L L = Some (target r)
               /\ target r <> EmptyString.
Proof.
  intros Hc Hn; split.
  - unfold resolveTarget, or_else; now rewrite Hn.
  - intros r Hr.
    apply toDisplayInfo_Ok in Hr as (c' & Hc' & _ & _ & _ & Ht & Hne & _).
    assert (c' = c) as -> by congruence.
    unfold resolveTarget, or_else in Ht; rewrite Hn in Ht; auto.
Qed.

(** C4. When the configuration entry exists and neither [source] nor
    [target] resolves to a non-empty string, resolution of the locale
    throws the missing-display-name error.  The resolver returns exactly
    one record per supported locale code, in order, each with non-empty
    [source] and [target]; the same holds, up to the ranker's reordering,
    for the list the component uses. *)
Theorem records_have_display_names :
  (forall locale L c,
      findConfig L = Some c ->
      truthy (resolveSource locale L c) = false ->
      truthy (resolveTarget L c) = false ->
      toDisplayInfo locale L = Throw (MissingDisplayName L))
  /\ (forall locale ls rs,
         resolved locale ls = Ok rs ->
         map localeChoice rs = ls
         /\ Forall (fun r => source r <> EmptyString
                             /\ target r <> EmptyString) rs)
  /\ (forall router ls ds,
         locales router = Some ls ->
         displayNames router = Ok ds ->
         Permutation ls (map localeChoice ds)
         /\ Forall (fun r => source r <> EmptyString
                             /\ target r <> EmptyString) ds).
Proof.
  split; [| split].
  - intros locale L c Hc Hs _.
    apply (toDisplayInfo_missing_name locale L c Hc); now left.
  - intros locale ls rs; apply resolved_Ok.
  - intros router ls ds Hl Hd.
    destruct (displayNames_Some router ls ds Hl Hd) as (rs & Hr & ->).
    apply resolved_Ok in Hr as [Hm Hf].
    pose proof (Array_sort_perm compareFn rs) as Hp; split.
    + rewrite <- Hm; now apply Permutation_map.
    + rewrite Forall_forall in *; intros r Hin; apply Hf.
      apply Permutation_sym in Hp; exact (Permutation_in r Hp Hin).
Qed.

(** C5. Resolution of a locale code throws the configuration error if
    and only if no entry of the configuration table has that code; the
    error names the code. *)
Theorem configuration_error_iff (locale L : string) :
  ((exists L', toDisplayInfo locale L = Throw (MissingI18nConfig L'))
   <-> ~ exists c, In c i18nConfig /\ code c = L)
  /\ (forall L', toDisplayInfo locale L = Throw (MissingI18nConfig L') ->
                 L' = L).
Proof.
  assert (forall L', toDisplayInfo locale L = Throw (MissingI18nConfig L') ->
                     findConfig L = None /\ L' = L) as Hinv.
  { unfold toDisplayInfo; intros L' H.
    destruct (findConfig L) as [c|]; [| split; congruence].
    destruct (negb _ || negb _); discriminate. }
  split; [split |].
  - intros [L' H] (c & Hin & Hc).
    apply Hinv in H as [H _].
    rewrite findConfig_None in H; exact (H c Hin Hc).
  - intros H; exists L; unfold toDisplayInfo.
    replace (findConfig L) with (@None I18nConfigItem); [reflexivity |].
    symmetry; apply findConfig_None; intros c Hin Hc; apply H; eauto.
  - intros L' H; now apply Hinv in H.
Qed.

End Resolver.

(* ------------------------------------------------------------------ *)
(** ** The filter *)

Section Filter.
Context {env : Collaborators}.

Lemma passes_iff (filterValue : string) (r : LocaleDisplayInfo) :
  passes filterValue r = true <->
  exists pre post,
    toLowerCase (localeChoice r +s source r +s target r)
    = pre +s toLowerCase filterValue +s post.
Proof. unfold passes; apply includes_iff. Qed.

Lemma filter_all {A : Type} (p : A -> bool) (l : list A) :
  (forall x, p x = true) -> filter p l = l.
Proof.
  intros Hp; induction l as [|x l IH]; simpl; [reflexivity |].
  now rewrite Hp, IH.
Qed.

(** C7. With [ds] the ranked list: the filtered list is [ds] restricted,
    in order, to the records that pass; a record passes the filter
    string [F] if and only if the lower-cased concatenation
    [localeChoice + source + target] contains the lower-cased [F] as a
    substring; and the empty filter string returns [ds] unchanged. *)
Theorem filter_by_substring
    (router : Router) (F : string) (ds : list LocaleDisplayInfo) :
  displayNames router = Ok ds ->
  filteredNames router F = Ok (filter (passes F) ds)
  /\ (forall r,
         In r (filter (passes F) ds) <->
         In r ds
         /\ exists pre post,
             toLowerCase (localeChoice r +s source r +s target r)
             = pre +s toLowerCase F +s post)
  /\ (toLowerCase EmptyString = EmptyString ->
      filteredNames router EmptyString = Ok ds).
Proof.
  intros Hd; unfold filteredNames; rewrite Hd; simpl.
  split; [reflexivity | split].
  - intros r; rewrite filter_In, passes_iff; reflexivity.
  - intros He; rewrite filter_all; [reflexivity |].
    intros r; unfold passes; rewrite He; apply includes_empty.
Qed.

(** C10. If the routing context supplies no list of supported locales,
    the component does not throw: the list of display records is empty,
    and so is the filtered list for every filter string. *)
Theorem no_locales_no_names (router : Router) :
  locales router = None ->
  displayNames router = Ok []
  /\ forall F, filteredNames router F = Ok [].
Proof.
  intros Hl.
  assert (displayNames router = Ok []) as Hd
    by (unfold displayNames; now rewrite Hl).
  split; [exact Hd |].
  intros F; unfold filteredNames; now rewrite Hd.
Qed.

End Filter.

(* ------------------------------------------------------------------ *)
(** ** Activation of a rendered item *)

Section Activation.

Lemma renderItemsFrom_In {World : Type} (index : nat) (router : Router)
    (handleClose : option (Callback World)) (onClose : Callback World)
    (names : list LocaleDisplayInfo) (item : ItemProps World) :
  In item (renderItemsFrom index router handleClose onClose names) ->
  (exists r, In r names /\ item_locale item = localeChoice r)
  /\ href item = asPath router
  /\ onClick item = onMenuClose handleClose onClose.
Proof.
  revert index; induction names as [|r names IH]; simpl; intros index H.
  - contradiction.
  - destruct H as [<-|H]; simpl.
    + split; [exists r; auto | auto].
    + destruct (IH _ H) as [(r' & Hin & Hl) Hrest].
      split; [exists r'; auto | exact Hrest].
Qed.

Lemma renderItemsFrom_locales {World : Type} (index : nat) (router : Router)
    (handleClose : option (Callback World)) (onClose : Callback World)
    (names : list LocaleDisplayInfo) :
  map item_locale (renderItemsFrom index router handleClose onClose names)
  = map localeChoice names.
Proof.
  revert index; induction names as [|r names IH]; simpl; intros index;
    [reflexivity | now rewrite IH].
Qed.

(** C8. One item is rendered per filtered record, for that record's
    locale code.  Activating the item for locale [L] navigates to the
    current path under [L] and then runs the caller's [handleClose] if
    one was given, otherwise the menu's own close function; in a world
    that records calls, exactly one of the two is recorded, after the
    navigation. *)
Theorem activation_navigates_then_closes
    (router : Router) (names : list LocaleDisplayInfo) :
  (forall (World : Type) (navigate : string -> string -> Callback World)
          (handleClose : option (Callback World)) (onClose : Callback World),
      map item_locale (renderItems router handleClose onClose names)
      = map localeChoice names
      /\ forall item w,
          In item (renderItems router handleClose onClose names) ->
          activate navigate item w
          = match handleClose with
            | Some handleClose =>
                handleClose (navigate (asPath router) (item_locale item) w)
            | None =>
                onClose (navigate (asPath router) (item_locale item) w)
            end)
  /\ (forall (given : bool) item,
         In item (renderItems router
                    (if given then Some (record HandleCloseCalled) else None)
                    (record OnCloseCalled) names) ->
         activate (fun h l => record (Navigated h l)) item []
         = [ Navigated (asPath router) (item_locale item);
             if given then HandleCloseCalled else OnCloseCalled ]).
Proof.
  assert (forall (World : Type) (navigate : string -> string -> Callback World)
                 (handleClose : option (Callback World))
                 (onClose : Callback World) item w,
             In item (renderItems router handleClose onClose names) ->
             activate navigate item w
             = match handleClose with
               | Some handleClose =>
                   handleClose (navigate (asPath router) (item_locale item) w)
               | None =>
                   onClose (navigate (asPath router) (item_locale item) w)
               end) as Hact.
  { intros World navigate handleClose onClose item w Hin.
    apply renderItemsFrom_In in Hin as (_ & Hh & Hc).
    unfold activate; rewrite Hh, Hc; unfold onMenuClose.
    destruct handleClose; reflexivity. }
  split.
  - intros World navigate handleClose onClose; split.
    + apply renderItemsFrom_locales.
    + intros item w; apply Hact.
  - intros given item Hin; rewrite (Hact _ _ _ _ _ _ Hin).
    destruct given; reflexivity.
Qed.

End Activation.

(* ------------------------------------------------------------------ *)
(** ** The example of the specification, and the corner cases *)

Example spec_example_ranked :
  @displayNames sampleEnv sampleRouter = Ok [englishInfo; spanishInfo].
Proof. reflexivity. Qed.

Example spec_example_filtered :
  @filteredNames sampleEnv sampleRouter "span" = Ok [spanishInfo].
Proof. reflexivity. Qed.

(** C1 as first stated fails: with an entry of value 0 for the default
    locale, the record carries 100 and not the entry's value. *)
Lemma zero_entry_of_default_locale_counterexample :
  ~ (forall locale L c d r,
        @findConfig zeroProgressEnv L = Some c ->
        @findProgress zeroProgressEnv c = Some d ->
        @toDisplayInfo zeroProgressEnv locale L = Ok r ->
        approvalProgress r = Crowdin.approvalProgress d).
Proof.
  intros H.
  specialize (H "en"%string "en"%string englishConfig
                {| Crowdin.languageId := "en"; Crowdin.approvalProgress := 0 |}
                englishInfo eq_refl eq_refl eq_refl).
  discriminate H.
Qed.

Lemma approval_progress_resolution_witness :
  @findConfig zeroProgressEnv "en" = Some englishConfig
  /\ @toDisplayInfo zeroProgressEnv "en" "en" = Ok englishInfo
  /\ approvalProgress englishInfo = 100.
Proof.
  split; [reflexivity | split; [reflexivity |]].
  exact (proj2 (@approval_progress_resolution zeroProgressEnv
                  "en" "en" englishConfig englishInfo eq_refl eq_refl)
               eq_refl).
Defined.

Lemma source_precedence_witness :
  @findConfig sampleEnv "es" = Some spanishConfig
  /\ @resolveSource sampleEnv "en" "es" spanishConfig = Some "Spanish"%string.
Proof.
  split; [reflexivity |].
  apply (proj1 (proj2 (@source_precedence sampleEnv "en" "es" spanishConfig
                         eq_refl)));
    [reflexivity | discriminate].
Defined.

(** C3 as first stated fails: a configured [localName] that is the empty
    string is not the record's [target]. *)
Lemma empty_localName_counterexample :
  ~ (forall locale L c s r,
        @findConfig emptyLocalNameEnv L = Some c ->
        localName c = Some s ->
        @toDisplayInfo emptyLocalNameEnv locale L = Ok r ->
        target r = s).
Proof.
  intros H.
  specialize (H "en"%string "es"%string spanishNoLocalName ""%string
                {| localeChoice := "es"; source := "Spanish";
                   target := "español"; approvalProgress := 40 |}
                eq_refl eq_refl eq_refl).
  discriminate H.
Qed.

Lemma target_precedence_witness :
  @findConfig sampleEnv "es" = Some spanishConfig
  /\ @toDisplayInfo sampleEnv "en" "es" = Ok spanishInfo
  /\ target spanishInfo = "Español"%string.
Proof.
  split; [reflexivity | split; [reflexivity |]].
  apply (proj1 (@target_precedence sampleEnv "en" "es" spanishConfig
                  spanishInfo eq_refl eq_refl));
    [reflexivity | discriminate].
Defined.

Lemma empty_localName_is_absent_witness :
  @findConfig emptyLocalNameEnv "es" = Some spanishNoLocalName
  /\ localName spanishNoLocalName = Some EmptyString
  /\ @resolveTarget emptyLocalNameEnv "es" spanishNoLocalName
     = Some "español"%string.
Proof.
  split; [reflexivity | split; [reflexivity |]].
  exact (proj1 (@empty_localName_is_absent emptyLocalNameEnv "en" "es"
                  spanishNoLocalName eq_refl eq_refl)).
Defined.

Lemma records_have_display_names_witness :
  @toDisplayInfo unnamedEnv "en" "xx" = Throw (MissingDisplayName "xx")
  /\ map localeChoice [englishInfo; spanishInfo] = ["en"; "es"]%string
  /\ Permutation ["en"; "es"]%string (map localeChoice [englishInfo; spanishInfo]).
Proof.
  split; [| split].
  - exact (proj1 (@records_have_display_names unnamedEnv)
                 "en"%string "xx"%string unnamedConfig
                 eq_refl eq_refl eq_refl).
  - exact (proj1 (proj1 (proj2 (@records_have_display_names sampleEnv))
                        "en"%string ["en"; "es"]%string
                        [englishInfo; spanishInfo] eq_refl)).
  - exact (proj1 (proj2 (proj2 (@records_have_display_names sampleEnv))
                        sampleRouter ["en"; "es"]%string
                        [englishInfo; spanishInfo] eq_refl eq_refl)).
Defined.

Lemma filter_by_substring_witness :
  @displayNames sampleEnv sampleRouter = Ok [englishInfo; spanishInfo]
  /\ @filteredNames sampleEnv sampleRouter "span" = Ok [spanishInfo]
  /\ @filteredNames sampleEnv sampleRouter "" = Ok [englishInfo; spanishInfo].
Proof.
  split; [reflexivity | split].
  - exact (proj1 (@filter_by_substring sampleEnv sampleRouter "span"
                    [englishInfo; spanishInfo] eq_refl)).
  - exact (proj2 (proj2 (@filter_by_substring sampleEnv sampleRouter ""
                           [englishInfo; spanishInfo] eq_refl))
                 eq_refl).
Defined.

Lemma no_locales_no_names_witness :
  let router := {| asPath := "/wallets/"; locale := "en"; locales := None |} in
  locales router = None
  /\ @displayNames sampleEnv router = Ok []
  /\ forall F, @filteredNames sampleEnv router F = Ok [].
Proof.
  split; [reflexivity |].
  exact (@no_locales_no_names sampleEnv
           {| asPath := "/wallets/"; locale := "en"; locales := None |}
           eq_refl).
Defined.

Lemma activation_navigates_then_closes_witness :
  let item :=
    {| key := "item-es"; href := "/wallets/"; item_locale := "es";
       firstResult := true;
       onClick := onMenuClose (Some (record HandleCloseCalled))
                              (record OnCloseCalled) |} in
  In item (renderItems sampleRouter (Some (record HandleCloseCalled))
             (record OnCloseCalled) [spanishInfo])
  /\ activate (fun h l => record (Navigated h l)) item []
     = [ Navigated "/wallets/" "es"; HandleCloseCalled ].
Proof.
  split; [left; reflexivity |].
  exact (proj2 (activation_navigates_then_closes sampleRouter [spanishInfo])
               true _ (or_introl eq_refl)).
Defined.

(* ------------------------------------------------------------------ *)
(** ** Further properties of the resolver *)

Section ArrayMapFacts.
Context {A B : Type}.
Variable f : A -> result B.

Lemma Array_map_app (l1 l2 : list A) :
  Array_map f (l1 ++ l2)
  = (rs1 <- Array_map f l1 ;; rs2 <- Array_map f l2 ;; Ok (rs1 ++ rs2)).
Proof.
  induction l1 as [|x l1 IH]; simpl.
  - destruct (Array_map f l2); reflexivity.
  - destruct (f x) as [y|e]; simpl; [| reflexivity].
    rewrite IH; destruct (Array_map f l1) as [rs1|e]; simpl; [| reflexivity].
    destruct (Array_map f l2); reflexivity.
Qed.

(** A throwing traversal stops at the first element whose callback
    throws, with that element's error. *)
Lemma Array_map_Throw (l : list A) (e : Error) :
  Array_map f l = Throw e <->
  exists pre x post rs,
    l = pre ++ x :: post /\ Array_map f pre = Ok rs /\ f x = Throw e.
Proof.
  split.
  - induction l as [|x l IH]; simpl; [discriminate |].
    destruct (f x) as [y|e'] eqn:Hx; simpl.
    + destruct (Array_map f l) as [ys|e'] eqn:Hl; simpl; [discriminate |].
      intros H; injection H as ->.
      destruct (IH eq_refl) as (pre & x' & post & rs & -> & Hpre & Hx').
      exists (x :: pre), x', post, (y :: rs); simpl.
      rewrite Hx, Hpre; auto.
    + intros H; injection H as ->.
      exists [], x, l, []; auto.
  - intros (pre & x & post & rs & -> & Hpre & Hx).
    rewrite Array_map_app, Hpre; simpl; now rewrite Hx.
Qed.

Lemma Array_map_Ok_iff (l : list A) :
  (exists rs, Array_map f l = Ok rs) <->
  (forall x, In x l -> exists r, f x = Ok r).
Proof.
  induction l as [|x l IH]; simpl.
  - split; [intros _ x [] | intros _; eauto].
  - split.
    + intros [rs H] x' Hin.
      destruct (f x) as [y|e] eqn:Hx; simpl in H; [| discriminate].
      destruct (Array_map f l) as [ys|e] eqn:Hl; simpl in H; [| discriminate].
      destruct Hin as [<-|Hin]; [eauto |].
      apply (proj1 IH); eauto.
    + intros H.
      destruct (H x (or_introl eq_refl)) as [y Hy]; rewrite Hy; simpl.
      destruct (proj2 IH (fun x' Hin => H x' (or_intror Hin))) as [ys Hys].
      rewrite Hys; simpl; eauto.
Qed.

End ArrayMapFacts.

Section ResolverEdges.
Context {env : Collaborators}.

(** Whatever holds of every record the callback returns holds of every
    record of the list the component uses. *)
Lemma displayNames_Forall (P : LocaleDisplayInfo -> Prop) (router : Router)
    (ds : list LocaleDisplayInfo) :
  (forall L r, toDisplayInfo (locale router) L = Ok r -> P r) ->
  displayNames router = Ok ds ->
  Forall P ds.
Proof.
  intros HP; unfold displayNames.
  destruct (locales router) as [ls|]; [| intros H; injection H as <-; constructor].
  destruct (resolved (locale router) ls) as [rs|e] eqn:Hr; simpl;
    [| discriminate].
  intros H; injection H as <-.
  apply Array_map_Ok in Hr.
  assert (Forall P rs) as Hrs
    by (induction Hr; constructor; eauto).
  rewrite Forall_forall in *; intros r Hin; apply Hrs.
  exact (Permutation_in r (Permutation_sym (Array_sort_perm compareFn rs)) Hin).
Qed.

(** X1. Resolution of a locale code throws the missing-display-name error
    if and only if its configuration entry exists and [source] or [target]
    (either one, not only both) is undefined or empty. *)
Theorem missing_display_name_iff (locale L : string) :
  toDisplayInfo locale L = Throw (MissingDisplayName L) <->
  exists c, findConfig L = Some c
            /\ (truthy (resolveSource locale L c) = false
                \/ truthy (resolveTarget L c) = false).
Proof.
  unfold toDisplayInfo; destruct (findConfig L) as [c|]; split.
  - intros H; exists c; split; [reflexivity |].
    destruct (truthy (resolveSource locale L c)); [| now left].
    destruct (truthy (resolveTarget L c)); [discriminate | now right].
  - intros (c' & Hc & [H|H]); injection Hc as <-; rewrite H; simpl;
      [reflexivity | now rewrite orb_true_r].
  - discriminate.
  - intros (c' & Hc & _); discriminate.
Qed.

(** X2. The fallbacks of [source] are not tried on an empty or undefined
    value: with a configuration entry present, an empty translation, or
    (without translation) an undefined platform name, makes the resolution
    throw, even when the configured English name is there. *)
Theorem unusable_source_throws (locale L : string) (c : I18nConfigItem) :
  findConfig L = Some c ->
  let i18nKey := "language-" +s toLowerCase L in
  (t i18nKey = EmptyString ->
   toDisplayInfo locale L = Throw (MissingDisplayName L))
  /\ (t i18nKey = i18nKey -> Intl_DisplayNames_of locale L = None ->
      toDisplayInfo locale L = Throw (MissingDisplayName L)).
Proof.
  intros Hc i18nKey; split.
  - intros Ht; apply (toDisplayInfo_missing_name locale L c Hc); left.
    unfold resolveSource; cbv zeta; fold i18nKey; rewrite Ht.
    reflexivity.
  - intros Ht Hi; apply (toDisplayInfo_missing_name locale L c Hc); left.
    unfold resolveSource; cbv zeta; fold i18nKey.
    rewrite Ht, String.eqb_refl, Hi; reflexivity.
Qed.

(** X3. With no usable configured [localName] (absent or empty) and no
    usable platform autonym (undefined or empty), the resolution throws
    the missing-display-name error, whatever [source] is. *)
Theorem unusable_target_throws (locale L : string) (c : I18nConfigItem) :
  findConfig L = Some c ->
  localName c = None \/ localName c = Some EmptyString ->
  Intl_DisplayNames_of L L = None
  \/ Intl_DisplayNames_of L L = Some EmptyString ->
  toDisplayInfo locale L = Throw (MissingDisplayName L).
Proof.
  intros Hc Hn Hi; apply (toDisplayInfo_missing_name locale L c Hc); right.
  unfold resolveTarget, or_else; cbv zeta.
  destruct Hn as [-> | ->]; destruct Hi as [-> | ->]; reflexivity.
Qed.

End ResolverEdges.

(* ------------------------------------------------------------------ *)
(** ** The list of display records as a whole *)

Section DisplayNames.
Context {env : Collaborators}.

(** X4. When the list of display records cannot be built, the error is
    that of the first supported locale, in list order, whose resolution
    throws: every locale before it resolves, and no later locale is
    looked at. *)
Theorem displayNames_throws_first_failure
    (router : Router) (ls : list string) (e : Error) :
  locales router = Some ls ->
  (displayNames router = Throw e <->
   exists pre L post rs,
     ls = pre ++ L :: post
     /\ resolved (locale router) pre = Ok rs
     /\ toDisplayInfo (locale router) L = Throw e).
Proof.
  intros Hl; unfold displayNames, resolved; rewrite Hl.
  pose proof (Array_map_Throw (toDisplayInfo (locale router)) ls e) as HT.
  destruct (Array_map (toDisplayInfo (locale router)) ls) as [rs|e'];
    simpl.
  - split; [discriminate |].
    intros H; apply (proj2 HT) in H; discriminate.
  - split.
    + intros H; apply (proj1 HT); congruence.
    + intros H; apply (proj2 HT) in H; congruence.
Qed.

(** X5. The list of display records is built if and only if every
    supported locale resolves: one locale without configuration or
    without a name leaves the component without any record. *)
Theorem displayNames_all_or_nothing (router : Router) (ls : list string) :
  locales router = Some ls ->
  ((exists ds, displayNames router = Ok ds) <->
   (forall L, In L ls -> exists r, toDisplayInfo (locale router) L = Ok r)).
Proof.
  intros Hl; unfold displayNames, resolved; rewrite Hl.
  pose proof (Array_map_Ok_iff (toDisplayInfo (locale router)) ls) as HO.
  destruct (Array_map (toDisplayInfo (locale router)) ls) as [rs|e];
    simpl; split.
  - intros _; apply (proj1 HO); eauto.
  - intros _; eauto.
  - intros [ds H]; discriminate.
  - intros H; apply (proj2 HO) in H; destruct H; discriminate.
Qed.

Lemma resolveApprovalProgress_range (L : string) (c : I18nConfigItem) :
  Forall (fun d => 0 <= Crowdin.approvalProgress d <= 100) progressData ->
  0 <= resolveApprovalProgress L c <= 100.
Proof.
  intros Hp; unfold resolveApprovalProgress, findProgress; cbv zeta.
  destruct (find _ progressData) as [d|] eqn:Hf.
  - apply find_some in Hf as [Hin _].
    rewrite Forall_forall in Hp; specialize (Hp d Hin).
    destruct (Crowdin.approvalProgress d =? 0); [| exact Hp].
    destruct (String.eqb L DEFAULT_LOCALE); lia.
  - destruct (String.eqb L DEFAULT_LOCALE); lia.
Qed.

(** X6. If every value of the progress table is a percentage between 0
    and 100, so is the [approvalProgress] of every display record, which
    is what the progress bar and the percent label are given. *)
Theorem approvalProgress_is_percentage
    (router : Router) (ds : list LocaleDisplayInfo) :
  Forall (fun d => 0 <= Crowdin.approvalProgress d <= 100) progressData ->
  displayNames router = Ok ds ->
  Forall (fun r => 0 <= approvalProgress r <= 100) ds.
Proof.
  intros Hp; apply displayNames_Forall; intros L r Hr.
  apply toDisplayInfo_Ok in Hr as (c & _ & _ & _ & _ & _ & _ & ->).
  now apply resolveApprovalProgress_range.
Qed.

Lemma sort_insert_head (a : LocaleDisplayInfo) (l : list LocaleDisplayInfo) :
  Forall (fun b => approvalProgress b <= approvalProgress a) l ->
  sort_insert compareFn a l = a :: l.
Proof.
  destruct l as [|b l]; [reflexivity |]; intros H; simpl.
  apply Forall_inv in H; unfold compareFn.
  destruct (0 <? approvalProgress b - approvalProgress a) eqn:Hc;
    [apply Z.ltb_lt in Hc; lia | reflexivity].
Qed.

(** X7. If the default locale is the first supported locale and has no
    entry in a progress table of percentages, its record (at 100) is the
    first of the ranked list: no other locale is shown above it. *)
Theorem default_locale_listed_first
    (router : Router) (rest : list string) (c : I18nConfigItem)
    (ds : list LocaleDisplayInfo) :
  locales router = Some (DEFAULT_LOCALE :: rest) ->
  findConfig DEFAULT_LOCALE = Some c ->
  findProgress c = None ->
  Forall (fun d => 0 <= Crowdin.approvalProgress d <= 100) progressData ->
  displayNames router = Ok ds ->
  exists r ds',
    ds = r :: ds'
    /\ localeChoice r = DEFAULT_LOCALE
    /\ approvalProgress r = 100.
Proof.
  intros Hl Hc Hn Hp Hd.
  destruct (displayNames_Some router _ ds Hl Hd) as (rs & Hr & ->).
  pose proof (Array_map_Ok _ _ _ Hr) as HF.
  inversion HF as [|L r ls' rs' Hr0 HF' E1 E2]; subst; clear HF.
  pose proof Hr0 as Hr0'.
  apply toDisplayInfo_Ok in Hr0' as (c' & Hc' & HL & _ & _ & _ & _ & Hap).
  assert (c' = c) as -> by congruence.
  assert (approvalProgress r = 100) as H100.
  { rewrite Hap; unfold resolveApprovalProgress; rewrite Hn; cbv zeta.
    now rewrite String.eqb_refl. }
  exists r, (Array_sort compareFn rs'); repeat split; auto.
  cbn [Array_sort]; apply sort_insert_head.
  assert (Forall (fun b => approvalProgress b <= 100) rs') as Hrs.
  { clear - HF' Hp; induction HF' as [|L r ls rs Hr _ IH]; constructor; auto.
    apply toDisplayInfo_Ok in Hr as (c & _ & _ & _ & _ & _ & _ & ->).
    now apply resolveApprovalProgress_range. }
  rewrite H100; rewrite Forall_forall in *; intros b Hin; apply Hrs.
  exact (Permutation_in b (Permutation_sym (Array_sort_perm compareFn rs')) Hin).
Qed.

End DisplayNames.

(** X8. The message of a thrown error tells the two kinds of error apart
    and names the locale code: different errors have different messages. *)
Theorem message_injective (e1 e2 : Error) :
  message e1 = message e2 -> e1 = e2.
Proof.
  destruct e1 as [l1|l1], e2 as [l2|l2]; simpl; intros H;
    try discriminate H; injection H as ->; reflexivity.
Qed.

(* ------------------------------------------------------------------ *)
(** ** The filtered list as a whole *)

Lemma append_assoc (a b c : string) : (a +s b) +s c = a +s (b +s c).
Proof. induction a as [|x a IH]; simpl; [reflexivity | now rewrite IH]. Qed.

Lemma includes_trans (s f g : string) :
  includes s f = true -> includes f g = true -> includes s g = true.
Proof.
  rewrite !includes_iff; intros (p1 & q1 & ->) (p2 & q2 & ->).
  exists (p1 +s p2), (q2 +s q1); now rewrite !append_assoc.
Qed.

Lemma filter_filter_implied {A : Type} (p q : A -> bool) (l : list A) :
  (forall x, q x = true -> p x = true) ->
  filter q (filter p l) = filter q l.
Proof.
  intros Hpq; induction l as [|x l IH]; simpl; [reflexivity |].
  destruct (p x) eqn:Hp; simpl; rewrite IH; [reflexivity |].
  destruct (q x) eqn:Hq; [| reflexivity].
  rewrite (Hpq x Hq) in Hp; discriminate.
Qed.

Lemma Forall_filter {A : Type} (P : A -> Prop) (p : A -> bool) (l : list A) :
  Forall P l -> Forall P (filter p l).
Proof.
  rewrite !Forall_forall; intros H x Hin; apply filter_In in Hin as [Hin _].
  auto.
Qed.

Lemma StronglySorted_filter {A : Type} (R : A -> A -> Prop) (p : A -> bool)
    (l : list A) :
  StronglySorted R l -> StronglySorted R (filter p l).
Proof.
  induction 1 as [|x l Hl IH Hx]; simpl; [constructor |].
  destruct (p x); [| exact IH].
  constructor; [exact IH | now apply Forall_filter].
Qed.

Section FilteredNames.
Context {env : Collaborators}.

Lemma displayNames_sorted (router : Router) (ds : list LocaleDisplayInfo) :
  displayNames router = Ok ds -> StronglySorted progress_ge ds.
Proof.
  unfold displayNames; destruct (locales router) as [ls|].
  - destruct (resolved (locale router) ls) as [rs|e]; simpl; [| discriminate].
    intros H; injection H as <-.
    apply Sorted_StronglySorted;
      [exact progress_ge_trans | apply Array_sort_sorted].
  - intros H; injection H as <-; constructor.
Qed.

Lemma filteredNames_Ok (router : Router) (F : string)
    (fs : list LocaleDisplayInfo) :
  filteredNames router F = Ok fs ->
  exists ds, displayNames router = Ok ds /\ fs = filter (passes F) ds.
Proof.
  unfold filteredNames; destruct (displayNames router) as [ds|e]; simpl;
    [| discriminate].
  intros H; injection H as <-; eauto.
Qed.

Lemma displayNames_locales (router : Router) (ls : list string)
    (ds : list LocaleDisplayInfo) :
  locales router = Some ls ->
  displayNames router = Ok ds ->
  Permutation ls (map localeChoice ds).
Proof.
  intros Hl Hd.
  destruct (displayNames_Some router ls ds Hl Hd) as (rs & Hr & ->).
  apply resolved_Ok in Hr as [<- _].
  apply Permutation_map, Array_sort_perm.
Qed.

(** X9. Whatever the filter string, the filtered list is still ordered by
    non-increasing [approvalProgress], and the count shown in the header
    is at most the number of supported locales. *)
Theorem filteredNames_ranked_and_bounded
    (router : Router) (ls : list string) (F : string)
    (fs : list LocaleDisplayInfo) :
  locales router = Some ls ->
  filteredNames router F = Ok fs ->
  StronglySorted progress_ge fs
  /\ (length fs <= length ls)%nat.
Proof.
  intros Hl Hf; apply filteredNames_Ok in Hf as (ds & Hd & ->); split.
  - apply StronglySorted_filter; exact (displayNames_sorted router ds Hd).
  - pose proof (displayNames_locales router ls ds Hl Hd) as Hp.
    apply Permutation_length in Hp; rewrite length_map in Hp.
    pose proof (List.filter_length_le (passes F) ds); lia.
Qed.

(** X10. Refining the query only narrows the result: when the lower-cased
    [F1] occurs in the lower-cased [F2], the list for [F2] is the list for
    [F1] filtered once more by [F2]. *)
Theorem refining_filter_narrows
    (router : Router) (F1 F2 : string) (fs1 : list LocaleDisplayInfo) :
  includes (toLowerCase F2) (toLowerCase F1) = true ->
  filteredNames router F1 = Ok fs1 ->
  filteredNames router F2 = Ok (filter (passes F2) fs1).
Proof.
  intros Hi Hf; apply filteredNames_Ok in Hf as (ds & Hd & ->).
  unfold filteredNames; rewrite Hd; simpl; f_equal.
  symmetry; apply filter_filter_implied.
  intros r Hr; unfold passes in *; exact (includes_trans _ _ _ Hr Hi).
Qed.

(** X11. The first record of the filtered list is a best match: it is a
    display record that passes the filter, and no display record that
    passes the filter has a higher [approvalProgress]. *)
Theorem first_result_is_best_match
    (router : Router) (F : string) (ds : list LocaleDisplayInfo)
    (r : LocaleDisplayInfo) (fs' : list LocaleDisplayInfo) :
  displayNames router = Ok ds ->
  filteredNames router F = Ok (r :: fs') ->
  In r ds
  /\ passes F r = true
  /\ forall r', In r' ds -> passes F r' = true ->
                approvalProgress r' <= approvalProgress r.
Proof.
  intros Hd Hf; apply filteredNames_Ok in Hf as (ds' & Hd' & Hfs).
  assert (ds' = ds) as -> by congruence.
  assert (In r (filter (passes F) ds)) as Hin by (rewrite <- Hfs; now left).
  apply filter_In in Hin as [Hin Hp]; repeat split; auto.
  intros r' Hin' Hp'.
  assert (In r' (r :: fs')) as Hr'
    by (rewrite Hfs; apply filter_In; auto).
  pose proof (StronglySorted_filter _ (passes F) _
                (displayNames_sorted router ds Hd)) as Hs.
  rewrite <- Hfs in Hs; inversion Hs as [|x l Hl Hall]; subst.
  destruct Hr' as [<-|Hr']; [lia |].
  rewrite Forall_forall in Hall; specialize (Hall r' Hr').
  unfold progress_ge in Hall; lia.
Qed.

End FilteredNames.

(* ------------------------------------------------------------------ *)
(** ** Rendered items and the keyboard *)

Section Rendering.
Context {World : Type}.
Variable router : Router.
Variable handleClose : option (Callback World).
Variable onClose : Callback World.

Lemma renderItemsFrom_keys (index : nat) (names : list LocaleDisplayInfo) :
  map key (renderItemsFrom index router handleClose onClose names)
  = map (fun l => "item-" +s l) (map localeChoice names).
Proof.
  revert index; induction names as [|r names IH]; simpl; intros index;
    [reflexivity | now rewrite IH].
Qed.

Lemma renderItemsFrom_firstResult (index n : nat)
    (names : list LocaleDisplayInfo) (item : ItemProps World) :
  nth_error (renderItemsFrom index router handleClose onClose names) n
  = Some item ->
  firstResult item = Nat.eqb (index + n) 0.
Proof.
  revert index n; induction names as [|r names IH]; simpl; intros index n H.
  - destruct n; discriminate.
  - destruct n as [|n]; simpl in H.
    + injection H as <-; simpl; now rewrite Nat.add_0_r.
    + rewrite (IH _ _ H); simpl.
      replace (index + S n)%nat with (S (index + n)) by lia; reflexivity.
Qed.

(** X12. Only the item at position 0 of the rendered list carries the
    reference the keyboard handler uses; every later item carries none. *)
Theorem only_first_item_has_ref
    (names : list LocaleDisplayInfo) (n : nat) (item : ItemProps World) :
  nth_error (renderItems router handleClose onClose names) n = Some item ->
  firstResult item = Nat.eqb n 0.
Proof. apply (renderItemsFrom_firstResult 0). Qed.

Variable preventDefault : Callback World.
Variable click : ItemProps World -> Callback World.
Variable focus : ItemProps World -> Callback World.

(** X13. With no filtered record, Enter and ArrowDown only prevent the
    key's default action: nothing is clicked or focused.  Any other key
    leaves everything as it is, whatever the list. *)
Theorem keys_without_target
    (names : list LocaleDisplayInfo) (e_key : string) (w : World) :
  let items := renderItems router handleClose onClose names in
  (names = [] ->
   onKeyDown preventDefault click focus items "Enter" w = preventDefault w
   /\ onKeyDown preventDefault click focus items "ArrowDown" w
      = preventDefault w)
  /\ (e_key <> "Enter"%string -> e_key <> "ArrowDown"%string ->
      onKeyDown preventDefault click focus items e_key w = w).
Proof.
  intros items; split.
  - intros ->; split; reflexivity.
  - intros H1 H2; unfold onKeyDown.
    apply String.eqb_neq in H1, H2; now rewrite H1, H2.
Qed.

(** X14. With at least one filtered record, Enter prevents the default
    action and then clicks the item of the first record, and ArrowDown
    prevents the default action and then focuses it; that item links to
    the current path under the first record's locale. *)
Theorem keys_target_first_result
    (r : LocaleDisplayInfo) (names : list LocaleDisplayInfo) (w : World) :
  let items := renderItems router handleClose onClose (r :: names) in
  exists el,
    nth_error items 0 = Some el
    /\ item_locale el = localeChoice r
    /\ href el = asPath router
    /\ onKeyDown preventDefault click focus items "Enter" w
       = click el (preventDefault w)
    /\ onKeyDown preventDefault click focus items "ArrowDown" w
       = focus el (preventDefault w).
Proof.
  intros items; eexists; split; [reflexivity |].
  repeat split; reflexivity.
Qed.

End Rendering.

Section Keys.
Context {env : Collaborators}.

(** Filtering keeps the locale codes of the records distinct. *)
Lemma filtered_codes_NoDup (F : string) (ds : list LocaleDisplayInfo) :
  NoDup (map localeChoice ds) ->
  NoDup (map localeChoice (filter (passes F) ds)).
Proof.
  induction ds as [|r ds IH]; simpl; [auto |].
  intros H; apply NoDup_cons_iff in H as [Hnin Hnd].
  destruct (passes F r); simpl; [| auto].
  apply NoDup_cons; [| auto].
  rewrite in_map_iff; intros (r' & Heq & Hr'); apply Hnin.
  rewrite <- Heq; apply in_map.
  now apply filter_In in Hr'.
Qed.

Lemma NoDup_item_keys (ls : list string) :
  NoDup ls -> NoDup (map (fun l => "item-" +s l) ls).
Proof.
  induction 1 as [|l ls Hnin Hnd IH]; simpl; constructor; [| exact IH].
  intros Hin; apply Hnin.
  apply in_map_iff in Hin as (l' & Heq & Hl').
  simpl in Heq; injection Heq as ->; exact Hl'.
Qed.

(** X15. If the supported locale codes are pairwise distinct, so are the
    keys of the rendered items, whatever the filter string. *)
Theorem item_keys_distinct
    {World : Type} (router : Router) (ls : list string) (F : string)
    (fs : list LocaleDisplayInfo)
    (handleClose : option (Callback World)) (onClose : Callback World) :
  locales router = Some ls ->
  NoDup ls ->
  filteredNames router F = Ok fs ->
  NoDup (map key (renderItems router handleClose onClose fs)).
Proof.
  intros Hl Hnd Hf; apply filteredNames_Ok in Hf as (ds & Hd & ->).
  unfold renderItems; rewrite renderItemsFrom_keys.
  apply NoDup_item_keys, filtered_codes_NoDup.
  exact (Permutation_NoDup (displayNames_locales router ls ds Hl Hd) Hnd).
Qed.

End Keys.

(* ------------------------------------------------------------------ *)
(** ** The viewer's locale and the ranking *)



Section Viewer.
Context {env : Collaborators}.



End Viewer.

(* ------------------------------------------------------------------ *)
(** ** The further properties on the sample data *)

Lemma unusable_source_throws_witness :
  @toDisplayInfo blankTranslationEnv "en" "es"
  = Throw (MissingDisplayName "es")
  /\ @toDisplayInfo unnamedEnv "en" "xx" = Throw (MissingDisplayName "xx").
Proof.
  split.
  - exact (proj1 (@unusable_source_throws blankTranslationEnv "en" "es"
                    spanishConfig eq_refl) eq_refl).
  - exact (proj2 (@unusable_source_throws unnamedEnv "en" "xx"
                    unnamedConfig eq_refl) eq_refl eq_refl).
Defined.

Lemma unusable_target_throws_witness :
  @toDisplayInfo unnamedEnv "en" "xx" = Throw (MissingDisplayName "xx").
Proof.
  exact (@unusable_target_throws unnamedEnv "en" "xx" unnamedConfig
           eq_refl (or_introl eq_refl) (or_introl eq_refl)).
Defined.

Lemma displayNames_throws_first_failure_witness :
  @displayNames sampleEnv unconfiguredRouter = Throw (MissingI18nConfig "fr").
Proof.
  apply (proj2 (@displayNames_throws_first_failure sampleEnv
                  unconfiguredRouter ["en"; "fr"; "es"]%string
                  (MissingI18nConfig "fr") eq_refl)).
  exists ["en"%string], "fr"%string, ["es"%string], [englishInfo].
  split; [reflexivity | split; reflexivity].
Defined.

Lemma displayNames_all_or_nothing_witness :
  exists r, @toDisplayInfo sampleEnv "en" "es" = Ok r.
Proof.
  apply (proj1 (@displayNames_all_or_nothing sampleEnv sampleRouter
                  ["en"; "es"]%string eq_refl)
               (ex_intro _ [englishInfo; spanishInfo] eq_refl)
               "es"%string).
  right; left; reflexivity.
Defined.

Lemma approvalProgress_is_percentage_witness :
  Forall (fun r => 0 <= approvalProgress r <= 100) [englishInfo; spanishInfo].
Proof.
  apply (@approvalProgress_is_percentage sampleEnv sampleRouter);
    [| reflexivity].
  constructor; [simpl; lia | constructor].
Defined.

Lemma default_locale_listed_first_witness :
  exists r ds',
    [englishInfo; spanishInfo] = r :: ds'
    /\ localeChoice r = "en"%string
    /\ approvalProgress r = 100.
Proof.
  apply (@default_locale_listed_first sampleEnv sampleRouter ["es"%string]
           englishConfig [englishInfo; spanishInfo]);
    try reflexivity.
  constructor; [simpl; lia | constructor].
Defined.

Lemma message_injective_witness :
  MissingI18nConfig "fr" = MissingI18nConfig "fr".
Proof.
  exact (message_injective (MissingI18nConfig "fr") (MissingI18nConfig "fr")
           eq_refl).
Defined.

Lemma filteredNames_ranked_and_bounded_witness :
  StronglySorted progress_ge [englishInfo; spanishInfo]
  /\ (length [englishInfo; spanishInfo] <= length ["en"; "es"]%string)%nat.
Proof.
  exact (@filteredNames_ranked_and_bounded sampleEnv sampleRouter
           ["en"; "es"]%string "e" [englishInfo; spanishInfo]
           eq_refl eq_refl).
Defined.

Lemma refining_filter_narrows_witness :
  @filteredNames sampleEnv sampleRouter "Span" = Ok [spanishInfo].
Proof.
  exact (@refining_filter_narrows sampleEnv sampleRouter "s" "Span"
           [englishInfo; spanishInfo] eq_refl eq_refl).
Defined.

Lemma first_result_is_best_match_witness :
  In englishInfo [englishInfo; spanishInfo]
  /\ @passes sampleEnv "e" englishInfo = true
  /\ forall r', In r' [englishInfo; spanishInfo] ->
                @passes sampleEnv "e" r' = true ->
                approvalProgress r' <= approvalProgress englishInfo.
Proof.
  exact (@first_result_is_best_match sampleEnv sampleRouter "e"
           [englishInfo; spanishInfo] englishInfo [spanishInfo]
           eq_refl eq_refl).
Defined.

Lemma only_first_item_has_ref_witness :
  firstResult
    {| key := "item-es"; href := "/wallets/"; item_locale := "es";
       firstResult := false;
       onClick := onMenuClose None (record OnCloseCalled) |}
  = false.
Proof.
  exact (only_first_item_has_ref sampleRouter None (record OnCloseCalled)
           [englishInfo; spanishInfo] 1 _ eq_refl).
Defined.

Lemma keys_without_target_witness :
  onKeyDown (logDom DefaultPrevented)
            (fun el => logDom (Clicked (key el)))
            (fun el => logDom (Focused (key el)))
            (renderItems sampleRouter None (fun w => w) []) "Enter" []
  = [DefaultPrevented]
  /\ onKeyDown (logDom DefaultPrevented)
               (fun el => logDom (Clicked (key el)))
               (fun el => logDom (Focused (key el)))
               (renderItems sampleRouter None (fun w => w) [spanishInfo])
               "Escape" []
     = [].
Proof.
  split.
  - exact (proj1 (proj1 (keys_without_target sampleRouter None (fun w => w)
                           (logDom DefaultPrevented)
                           (fun el => logDom (Clicked (key el)))
                           (fun el => logDom (Focused (key el)))
                           [] "Enter" []) eq_refl)).
  - apply (proj2 (keys_without_target sampleRouter None (fun w => w)
                    (logDom DefaultPrevented)
                    (fun el => logDom (Clicked (key el)))
                    (fun el => logDom (Focused (key el)))
                    [spanishInfo] "Escape" [])); discriminate.
Defined.

Lemma item_keys_distinct_witness :
  NoDup ["item-en"; "item-es"]%string.
Proof.
  apply (@item_keys_distinct sampleEnv (list Effect) sampleRouter
           ["en"; "es"]%string "" [englishInfo; spanishInfo]
           None (record OnCloseCalled));
    try reflexivity.
  constructor; [simpl; intros [H|[]]; discriminate H |].
  constructor; [intros [] | constructor].
Defined.

